(** * flow::follower::AnyBefore — a shallow embedding and its properties

    Source: [flow/include/follower/impl/any_before.hpp].

    The follower is a class template over the dispatch type and, through the
    dispatch traits, over a stamp type and an offset type.  The embedding is
    generic in the same way: stamps and offsets are parameters that come with
    the operations the implementation uses on them ([operator<] on stamps and
    [stamp - offset]), packaged as the type class [StampTraits].  The lock
    policy is the single threaded one: every operation runs to completion on
    the caller's thread, so a captor is a value that is passed from one
    operation to the next. *)

From stdpp Require Import base decidable list sorting numbers.

(** ** Stamps, dispatches and capture ranges *)

(** Modelled from the spec: the stamp traits are not among the sources.  This
    is the part of them that the follower relies on: a strict total order on
    stamps ([operator<]) and the subtraction of an offset from a stamp
    ([range.upper_stamp - delay_]).  Nothing is assumed about the arithmetic
    itself. *)
Class StampTraits (stamp_type offset_type : Type) := {
  stamp_lt : relation stamp_type;
  stamp_minus : stamp_type → offset_type → stamp_type;
  stamp_lt_dec :: RelDecision stamp_lt;
  stamp_lt_strict :: StrictOrder stamp_lt;
  stamp_lt_trichotomy :: Trichotomy stamp_lt;
}.

(** [a <= b] on stamps, as C++ code would write [!(b < a)]. *)
Definition stamp_le `{StampTraits stamp_type offset_type} : relation stamp_type :=
  λ a b, ¬ stamp_lt b a.

(** Integer stamps with integer offsets (the default specialisation for
    integral stamp types), without overflow. *)
#[export] Instance Z_StampTraits : StampTraits Z Z := {|
  stamp_lt := Z.lt;
  stamp_minus := Z.sub;
  stamp_lt_trichotomy := Z.lt_trichotomy;
|}.

(** Modelled from the spec: the dispatch type is a template parameter; the
    library's default, [flow::Dispatch<StampT, DataT>], is a pair of a stamp
    and a data value with the accessors [stamp()] and [data()]. *)
Record Dispatch (stamp_type value_type : Type) := MkDispatch {
  stamp : stamp_type;
  data : value_type;
}.
Arguments MkDispatch {stamp_type value_type} _ _.
Arguments stamp {stamp_type value_type} _.
Arguments data {stamp_type value_type} _.

(** Modelled from the spec: [flow::CaptureRange<StampT>], the pair of the
    lower and the upper stamp of the driving range ([range.upper_stamp] in
    the follower's code). *)
Record CaptureRange (stamp_type : Type) := MkCaptureRange {
  lower_stamp : stamp_type;
  upper_stamp : stamp_type;
}.
Arguments MkCaptureRange {stamp_type} _ _.
Arguments lower_stamp {stamp_type} _.
Arguments upper_stamp {stamp_type} _.

(** Modelled from the spec: [flow::State], the result of a capture
    attempt. *)
Inductive State := PRIMED | RETRY | ABORT | TIMEOUT.

#[export] Instance State_eq_dec : EqDecision State.
Proof. solve_decision. Defined.

(** ** The dispatch queue *)

Module DispatchQueue.
Section queue.
Context {stamp_type offset_type value_type : Type}.
Context `{!StampTraits stamp_type offset_type}.

Abbreviation Dispatch := (Dispatch stamp_type value_type).

(** Modelled from the spec: the queue class ([flow::DispatchQueue], the
    type of [PolicyType::queue_]) is not among the sources.  Following the
    capture queue section of the specification it is an ordered buffer of
    dispatches, oldest first; the operations below are the ones the
    follower calls, with the contracts stated there. *)
Definition empty (q : list Dispatch) : bool :=
  match q with [] => true | _ => false end.

(** Modelled from the spec: the number of queued elements. *)
Definition size (q : list Dispatch) : nat := length q.

(** Modelled from the spec: the stamp of the front element; nothing when
    the queue is empty (callers test [empty] first). *)
Definition oldest_stamp (q : list Dispatch) : option stamp_type :=
  stamp <$> head q.

(** Modelled from the spec: removes and returns the front element. *)
Definition pop (q : list Dispatch) : option (Dispatch * list Dispatch) :=
  match q with
  | [] => None
  | d :: q' => Some (d, q')
  end.

(** Modelled from the spec: retires all elements with [stamp < s]. *)
Definition remove_before (s : stamp_type) (q : list Dispatch) : list Dispatch :=
  filter (λ d, ¬ stamp_lt (stamp d) s) q.

(** Modelled from the spec: places [d] at its stamp-ordered position;
    dispatches with equal stamps keep their insertion order. *)
Fixpoint insert (d : Dispatch) (q : list Dispatch) : list Dispatch :=
  match q with
  | [] => [d]
  | x :: q' =>
      if decide (stamp_lt (stamp d) (stamp x)) then d :: x :: q'
      else x :: insert d q'
  end.

(** Modelled from the spec: insertion into a queue bounded by [capacity];
    when the queue is full the oldest element is dropped before the new one
    is inserted. *)
Definition insert_bounded (capacity : option nat) (d : Dispatch)
    (q : list Dispatch) : list Dispatch :=
  match capacity with
  | Some c => if decide (c ≤ size q) then insert d (tail q) else insert d q
  | None => insert d q
  end.

(** Modelled from the spec: invariant Q1 of the queue, elements are stored
    in non-decreasing stamp order. *)
Definition Q1 (q : list Dispatch) : Prop :=
  Sorted (λ a b, stamp_le (stamp a) (stamp b)) q.
End queue.
End DispatchQueue.

(** ** The follower *)

Section any_before.
Context {stamp_type offset_type value_type : Type}.
Context `{!StampTraits stamp_type offset_type}.

Abbreviation Dispatch := (Dispatch stamp_type value_type).
Abbreviation CaptureRange := (CaptureRange stamp_type).

(** The state of an [AnyBefore] captor: the queue of the policy base class
    ([PolicyType::queue_]) and its own [delay_] member.  [capacity_] is the
    optional bound that a captor may be configured with; only [inject] reads
    it. *)
Record AnyBefore := MkAnyBefore {
  queue_ : list Dispatch;
  capacity_ : option nat;
  delay_ : offset_type;
}.

(** [AnyBefore::AnyBefore(delay, container, queue_monitor)]: the container
    is handed to the policy base class as the storage of the queue and the
    delay is kept.  None of the follower's member functions uses the queue
    monitor, so it is left out; a new captor is unbounded. *)
Definition make (delay : offset_type) (container : list Dispatch) : AnyBefore :=
  MkAnyBefore container None delay.

(** [const stamp_type boundary = range.upper_stamp - delay_;] *)
Definition boundary (self : AnyBefore) (range : CaptureRange) : stamp_type :=
  stamp_minus (upper_stamp range) (delay_ self).

(** The loop of [capture_follower_impl]:
<<
    while (!queue_.empty() and queue_.oldest_stamp() < boundary)
      *(output++) = queue_.pop();
>>
    on the pair of the output written so far and the queue.  Every
    iteration pops one element, so the recursion is on the queue; the lemmas
    [capture_loop_empty], [capture_loop_stop] and [capture_loop_iter]
    restate it with the queue's own operations. *)
Fixpoint capture_loop (b : stamp_type) (output q : list Dispatch)
    : list Dispatch * list Dispatch :=
  match q with
  | [] => (output, q)
  | d :: q' =>
      if decide (stamp_lt (stamp d) b) then capture_loop b (output ++ [d]) q'
      else (output, q)
  end.

(** [AnyBefore::capture_follower_impl(output, range)].  The output iterator
    is an append-only sink: the elements written through it so far. *)
Definition capture_follower_impl (output : list Dispatch)
    (range : CaptureRange) (self : AnyBefore)
    : State * list Dispatch * AnyBefore :=
  let b := boundary self range in
  let '(output', q) := capture_loop b output (queue_ self) in
  (PRIMED, output',
   MkAnyBefore (DispatchQueue.remove_before b q) (capacity_ self) (delay_ self)).

(** [AnyBefore::dry_capture_follower_impl(range) const] *)
Definition dry_capture_follower_impl (range : CaptureRange)
    (self : AnyBefore) : State :=
  PRIMED.

(** [AnyBefore::abort_follower_impl(t_abort)] *)
Definition abort_follower_impl (t_abort : stamp_type) (self : AnyBefore)
    : AnyBefore :=
  MkAnyBefore
    (DispatchQueue.remove_before (stamp_minus t_abort (delay_ self)) (queue_ self))
    (capacity_ self) (delay_ self).

(** *** The captor surface *)

(** Modelled from the spec: the captor and follower base classes are not
    among the sources.  Under the single threaded lock policy the public
    [capture(output, range)] hands over to the policy implementation. *)
Definition capture := capture_follower_impl.

(** Modelled from the spec: the public [dry_capture(range)], which hands over
    to the policy implementation. *)
Definition dry_capture := dry_capture_follower_impl.

(** Modelled from the spec: the public [abort(stamp)], which hands over to
    the policy implementation. *)
Definition abort := abort_follower_impl.

(** Modelled from the spec: the public [inject(d)], which inserts into the
    queue, within the capacity when the captor has one. *)
Definition inject (d : Dispatch) (self : AnyBefore) : AnyBefore :=
  MkAnyBefore
    (DispatchQueue.insert_bounded (capacity_ self) d (queue_ self))
    (capacity_ self) (delay_ self).

(** *** Sequences of operations *)

(** One call on the captor surface. *)
Inductive Op :=
| OpInject (d : Dispatch)
| OpCapture (range : CaptureRange)
| OpDryCapture (range : CaptureRange)
| OpAbort (t_abort : stamp_type).

(** A captor together with everything it has emitted so far. *)
Definition Session : Type := AnyBefore * list Dispatch.

Definition step (σ : Session) (op : Op) : Session :=
  match op with
  | OpInject d => (inject d σ.1, σ.2)
  | OpCapture range =>
      let '(_, output, self) := capture σ.2 range σ.1 in (self, output)
  | OpDryCapture range =>
      match dry_capture range σ.1 with _ => σ end
  | OpAbort t_abort => (abort t_abort σ.1, σ.2)
  end.

Definition run (ops : list Op) (σ : Session) : Session :=
  foldl step σ ops.

(** The dispatches handed to [inject] by a sequence of operations. *)
Definition injected (ops : list Op) : list Dispatch :=
  omap (λ op, match op with OpInject d => Some d | _ => None end) ops.
End any_before.

Arguments AnyBefore : clear implicits.
Arguments Op : clear implicits.
Arguments Session : clear implicits.

(** ** Sample data *)

Section samples.
Local Open Scope Z_scope.

(** A follower stream with integer stamps; the data is a serial number. *)
Definition sample_queue : list (Dispatch Z nat) :=
  [MkDispatch 1 10%nat; MkDispatch 4 11%nat; MkDispatch 4 12%nat;
   MkDispatch 7 13%nat].

Definition sample_follower : AnyBefore Z Z nat :=
  MkAnyBefore sample_queue None 1.

End samples.

(** * Properties *)

(** ** The order on stamps *)

Section stamp_order.
Context `{StampTraits stamp_type offset_type}.

#[export] Instance stamp_le_refl : Reflexive stamp_le.
Proof. intros a Ha. by apply (irreflexivity stamp_lt a). Qed.

#[export] Instance stamp_le_trans : Transitive stamp_le.
Proof.
  intros a b c Hab Hbc Hca.
  destruct (trichotomy stamp_lt b c) as [Hlt | [-> | Hlt]].
  - apply Hab. by transitivity c.
  - by apply Hab.
  - by apply Hbc.
Qed.

Lemma stamp_le_total a b : stamp_le a b ∨ stamp_le b a.
Proof.
  destruct (decide (stamp_lt b a)) as [Hba | Hba]; [right | by left].
  intros Hab. apply (irreflexivity stamp_lt a). by transitivity b.
Qed.

Lemma stamp_lt_le a b : stamp_lt a b → stamp_le a b.
Proof. intros Hab Hba. apply (irreflexivity stamp_lt a). by transitivity b. Qed.
End stamp_order.

(** ** The queue *)

Section queue_facts.
Context {stamp_type offset_type value_type : Type}.
Context `{!StampTraits stamp_type offset_type}.

Abbreviation Dispatch' := (Dispatch stamp_type value_type).
Implicit Types (q : list Dispatch') (d : Dispatch') (s b : stamp_type).

Import DispatchQueue.

Lemma Q1_nil : Q1 (@nil Dispatch').
Proof. constructor. Qed.

Lemma Q1_strongly q :
  Q1 q ↔ StronglySorted (λ a c : Dispatch', stamp_le (stamp a) (stamp c)) q.
Proof.
  split; [| apply StronglySorted_Sorted].
  apply Sorted_StronglySorted. intros a c e Hac Hce. by etrans.
Qed.

Lemma Q1_cons d q :
  Q1 (d :: q) ↔ Forall (λ x, stamp_le (stamp d) (stamp x)) q ∧ Q1 q.
Proof. by rewrite !Q1_strongly, StronglySorted_cons. Qed.

Lemma Q1_app_l q1 q2 : Q1 (q1 ++ q2) → Q1 q1.
Proof. rewrite !Q1_strongly. apply StronglySorted_app_1_l. Qed.

Lemma Q1_sublist q1 q2 : q1 `sublist_of` q2 → Q1 q2 → Q1 q1.
Proof.
  rewrite !Q1_strongly. induction 1 as [| x l1 l2 Hs IH | x l1 l2 Hs IH].
  - done.
  - rewrite !StronglySorted_cons. intros [Hx Hl]. split; [| by apply IH].
    rewrite list.Forall_forall in Hx |- *. intros y Hy. apply Hx.
    by eapply elem_of_sublist.
  - rewrite StronglySorted_cons. intros [_ Hl]. by apply IH.
Qed.

Lemma Q1_tail q : Q1 q → Q1 (tail q).
Proof. destruct q as [| d q]; [done |]. rewrite Q1_cons. by intros [_ ?]. Qed.

Lemma Q1_remove_before s q : Q1 q → Q1 (remove_before s q).
Proof. apply Q1_sublist, sublist_filter. Qed.

Lemma insert_Permutation d q : insert d q ≡ₚ d :: q.
Proof.
  induction q as [| x q IH]; simpl; [done |].
  case_decide; [done |]. by rewrite IH, Permutation_swap.
Qed.

Lemma Q1_insert d q : Q1 q → Q1 (insert d q).
Proof.
  induction q as [| x q IH]; simpl.
  - intros _. apply Q1_cons. split; [constructor | apply Q1_nil].
  - intros Hq. pose proof Hq as [Hx Hq']%Q1_cons. case_decide as Hdx.
    + apply Q1_cons. split; [| done]. constructor.
      * by apply stamp_lt_le.
      * eapply list.Forall_impl; [exact Hx |]. intros y Hy; simpl in Hy.
        etrans; [by apply stamp_lt_le | done].
    + apply Q1_cons. split; [| by apply IH].
      rewrite (insert_Permutation d q). by constructor.
Qed.

Lemma Q1_insert_bounded capacity d q :
  Q1 q → Q1 (insert_bounded capacity d q).
Proof.
  intros Hq. unfold insert_bounded. destruct capacity as [c |].
  - case_decide; by auto using Q1_insert, Q1_tail.
  - by apply Q1_insert.
Qed.

Lemma insert_bounded_submseteq capacity d q :
  insert_bounded capacity d q ⊆+ q ++ [d].
Proof.
  assert (Hin : ∀ q', q' ⊆+ q → insert d q' ⊆+ q ++ [d]).
  { intros q' Hq'. rewrite insert_Permutation.
    rewrite (Permutation_app_comm q [d]). simpl. by constructor. }
  unfold insert_bounded. destruct capacity as [c |]; [case_decide |];
    apply Hin; try done.
  destruct q; [done |]. simpl. by constructor.
Qed.

Lemma remove_before_all_le s q :
  Forall (λ x, stamp_le s (stamp x)) q → remove_before s q = q.
Proof.
  unfold remove_before. induction 1 as [| x q Hx _ IH]; [done |].
  by rewrite filter_cons_True, IH.
Qed.

Lemma remove_before_Forall s q :
  Forall (λ x, stamp_le s (stamp x)) (remove_before s q).
Proof.
  apply list.Forall_forall. intros x [Hx _]%list_elem_of_filter. exact Hx.
Qed.

Lemma remove_before_idemp s q :
  remove_before s (remove_before s q) = remove_before s q.
Proof. apply remove_before_all_le, remove_before_Forall. Qed.

Lemma filter_before_none s q :
  Forall (λ x, stamp_le s (stamp x)) q →
  filter (λ x, stamp_lt (stamp x) s) q = [].
Proof.
  induction 1 as [| x q Hx _ IH]; [done |].
  by rewrite filter_cons_False.
Qed.

(** In a sorted queue, once the front is not before [s] nothing is. *)
Lemma Q1_front_le s d q :
  Q1 (d :: q) → stamp_le s (stamp d) →
  Forall (λ x, stamp_le s (stamp x)) (d :: q).
Proof.
  intros [Hd _]%Q1_cons Hs. constructor; [done |].
  eapply list.Forall_impl; [exact Hd |]. intros y Hy; simpl in Hy. by etrans.
Qed.
End queue_facts.

(** ** The capture loop *)

Section capture_loop_facts.
Context {stamp_type offset_type value_type : Type}.
Context `{!StampTraits stamp_type offset_type}.

Implicit Types (q output : list (Dispatch stamp_type value_type)).
Implicit Types (d : Dispatch stamp_type value_type) (s b : stamp_type).

Import DispatchQueue.

(** The loop in terms of the queue's operations: it stops on an empty
    queue and on a front element that is not before the boundary, and
    otherwise writes the popped element and goes on. *)
Lemma capture_loop_empty b output q :
  empty q = true → capture_loop b output q = (output, q).
Proof. by destruct q. Qed.

Lemma capture_loop_stop b output q s :
  oldest_stamp q = Some s → ¬ stamp_lt s b →
  capture_loop b output q = (output, q).
Proof.
  destruct q as [| d q]; [done |]. intros [= <-] Hs; simpl.
  by rewrite decide_False.
Qed.

Lemma capture_loop_iter b output q s d q' :
  oldest_stamp q = Some s → stamp_lt s b → pop q = Some (d, q') →
  capture_loop b output q = capture_loop b (output ++ [d]) q'.
Proof.
  destruct q as [| d0 q0]; [done |]. intros [= <-] Hs [= <- <-]; simpl.
  by rewrite decide_True.
Qed.

(** The loop moves a prefix of the queue to the end of the output. *)
Lemma capture_loop_app b output q :
  (capture_loop b output q).1 ++ (capture_loop b output q).2 = output ++ q.
Proof.
  revert output. induction q as [| d q IH]; intros output; simpl; [done |].
  case_decide; [| done]. by rewrite IH, <-(assoc_L (++)).
Qed.

(** What it moves is before the boundary, so retiring everything before
    the boundary afterwards leaves the same queue as retiring it at once. *)
Lemma capture_loop_remove_before b output q :
  remove_before b (capture_loop b output q).2 = remove_before b q.
Proof.
  revert output. induction q as [| d q IH]; intros output; simpl; [done |].
  case_decide as Hd; [| done].
  rewrite IH. unfold remove_before. rewrite filter_cons_False; [done |].
  by intros Hn.
Qed.

(** On a sorted queue the loop takes every element before the boundary. *)
Lemma capture_loop_Q1 b output q :
  Q1 q →
  capture_loop b output q =
    (output ++ filter (λ d, stamp_lt (stamp d) b) q, remove_before b q).
Proof.
  revert output. induction q as [| d q IH]; intros output Hq; simpl.
  - unfold remove_before. by rewrite !filter_nil, (right_id_L [] (++)).
  - case_decide as Hd.
    + rewrite IH by (by apply Q1_cons in Hq as [_ ?]).
      unfold remove_before.
      rewrite filter_cons_True by done.
      rewrite (filter_cons_False (λ x, ¬ _)) by (by intros Hn).
      by rewrite <-(assoc_L (++)).
    + pose proof (Q1_front_le b d q Hq Hd) as Hall.
      rewrite filter_before_none by done.
      rewrite remove_before_all_le by done.
      by rewrite (right_id_L [] (++)).
Qed.

(** So on a sorted queue what [remove_before] retires is a prefix. *)
Lemma remove_before_prefix s q :
  Q1 q → q = filter (λ d, stamp_lt (stamp d) s) q ++ remove_before s q.
Proof.
  intros Hq. pose proof (capture_loop_app s [] q) as Happ.
  by rewrite capture_loop_Q1 in Happ.
Qed.

Lemma capture_loop_fixed b output q :
  Forall (λ x, stamp_le b (stamp x)) q → capture_loop b output q = (output, q).
Proof. destruct 1; simpl; [done |]. by rewrite decide_False. Qed.
End capture_loop_facts.

(** ** The follower's operations *)

Section any_before_facts.
Context {stamp_type offset_type value_type : Type}.
Context `{!StampTraits stamp_type offset_type}.

Abbreviation Captor := (AnyBefore stamp_type offset_type value_type).
Abbreviation Range := (CaptureRange stamp_type).
Implicit Types (self : Captor) (range : Range).
Implicit Types (q output : list (Dispatch stamp_type value_type)).

Import DispatchQueue.

(** [capture] in one equation: the state is [PRIMED], the output is what
    the loop wrote and the queue has lost everything before the boundary. *)
Lemma capture_eq output range self :
  capture output range self =
    (PRIMED,
     (capture_loop (boundary self range) output (queue_ self)).1,
     MkAnyBefore (remove_before (boundary self range) (queue_ self))
       (capacity_ self) (delay_ self)).
Proof.
  unfold capture, capture_follower_impl.
  pose proof (capture_loop_remove_before (boundary self range) output
                (queue_ self)) as Hrm.
  destruct (capture_loop _ _ _) as [output' q']. simpl in *. by rewrite Hrm.
Qed.

Lemma capture_boundary output range self :
  boundary (capture output range self).2 range = boundary self range.
Proof. by rewrite capture_eq. Qed.

(** Every operation keeps the queue sorted. *)
Lemma step_Q1 (σ : Session stamp_type offset_type value_type) op :
  Q1 (queue_ σ.1) → Q1 (queue_ (step σ op).1).
Proof.
  destruct σ as [self output], op as [d | range | range | t]; simpl; intros Hq.
  - by apply Q1_insert_bounded.
  - rewrite capture_eq. simpl. by apply Q1_remove_before.
  - done.
  - by apply Q1_remove_before.
Qed.

Lemma run_Q1 ops (σ : Session stamp_type offset_type value_type) :
  Q1 (queue_ σ.1) → Q1 (queue_ (run ops σ).1).
Proof.
  revert σ. induction ops as [| op ops IH]; intros σ Hq; simpl; [done |].
  by apply IH, step_Q1.
Qed.

(** A captor constructed on a container in stamp order (an empty one, as a
    rule) and then driven through its surface only always has a queue in
    stamp order. *)
Lemma reachable_Q1 delay container ops output :
  Q1 container → Q1 (queue_ (run ops (make delay container, output)).1).
Proof. intros Hq. by apply run_Q1. Qed.

Lemma reachable_Q1_empty delay ops output :
  Q1 (queue_ (run ops (make delay [], output)).1).
Proof. apply reachable_Q1, Q1_nil. Qed.

(** Nothing is created: what has been emitted and what is still queued
    comes from what was emitted or queued before and what was injected. *)
Lemma step_conservation (σ : Session stamp_type offset_type value_type) op :
  (step σ op).2 ++ queue_ (step σ op).1 ⊆+ (σ.2 ++ queue_ σ.1) ++ injected [op].
Proof.
  destruct σ as [self output], op as [d | range | range | t]; simpl.
  - rewrite <-(assoc_L (++)). apply submseteq_skips_l.
    apply insert_bounded_submseteq.
  - rewrite capture_eq. simpl. rewrite (right_id_L [] (++)).
    rewrite <-(capture_loop_app (boundary self range) output (queue_ self)).
    apply submseteq_skips_l.
    rewrite <-(capture_loop_remove_before _ output).
    apply sublist_submseteq, sublist_filter.
  - by rewrite (right_id_L [] (++)).
  - rewrite (right_id_L [] (++)). apply submseteq_skips_l.
    apply sublist_submseteq, sublist_filter.
Qed.

Lemma run_conservation ops (σ : Session stamp_type offset_type value_type) :
  (run ops σ).2 ++ queue_ (run ops σ).1 ⊆+ (σ.2 ++ queue_ σ.1) ++ injected ops.
Proof.
  revert σ. induction ops as [| op ops IH]; intros σ.
  - simpl. by rewrite (right_id_L [] (++)).
  - change (run (op :: ops) σ) with (run ops (step σ op)).
    etrans; [apply IH |].
    change (op :: ops) with ([op] ++ ops).
    unfold injected at 2. rewrite omap_app, (assoc_L (++)).
    apply submseteq_skips_r, step_conservation.
Qed.

(** With dispatches that are all different, nothing is emitted twice. *)
Lemma emitted_NoDup ops self :
  NoDup (queue_ self ++ injected ops) → NoDup (run ops (self, [])).2.
Proof.
  intros Hnd.
  destruct (submseteq_Permutation _ _ (run_conservation ops (self, [])))
    as [rest Hrest].
  simpl in Hrest. rewrite Hrest, <-(assoc_L (++)) in Hnd.
  by apply list.NoDup_app in Hnd as [? _].
Qed.

(** What [capture] writes when the queue is in stamp order. *)
Lemma capture_output_Q1 output range self :
  Q1 (queue_ self) →
  (capture output range self).1.2 =
    output ++ filter (λ d, stamp_lt (stamp d) (boundary self range)) (queue_ self).
Proof. intros Hq. rewrite capture_eq. simpl. by rewrite capture_loop_Q1. Qed.

(** The same for a captor in any state that the constructor, on an empty
    container, and the captor surface can lead to. *)
Lemma capture_output_reachable delay ops log output range :
  (capture output range (run ops (make delay [], log)).1).1.2 =
    output ++
      filter (λ d, stamp_lt (stamp d)
                     (boundary (run ops (make delay [], log)).1 range))
        (queue_ (run ops (make delay [], log)).1).
Proof. apply capture_output_Q1, reachable_Q1_empty. Qed.

(** On a sorted queue a run of captures moves a prefix of the queue to
    the output, whatever the ranges are. *)
Lemma run_captures_prefix ranges self output :
  Q1 (queue_ self) →
  (run (OpCapture <$> ranges) (self, output)).2
    ++ queue_ (run (OpCapture <$> ranges) (self, output)).1
  = output ++ queue_ self.
Proof.
  revert self output.
  induction ranges as [| range ranges IH]; intros self output Hq; [done |].
  change (run (OpCapture <$> range :: ranges) (self, output))
    with (run (OpCapture <$> ranges) (step (self, output) (OpCapture range))).
  pose proof (step_Q1 (self, output) (OpCapture range) Hq) as Hq'.
  simpl in *. rewrite capture_eq in *. simpl in *.
  rewrite IH by done. simpl.
  rewrite capture_loop_Q1 by done. simpl.
  rewrite <-(capture_loop_app (boundary self range) output (queue_ self)).
  by rewrite capture_loop_Q1.
Qed.
End any_before_facts.

(** ** What the specification says about the follower *)

Section any_before_spec.
Context {stamp_type offset_type value_type : Type}.
Context `{!StampTraits stamp_type offset_type}.

Implicit Types (self : AnyBefore stamp_type offset_type value_type).
Implicit Types (range : CaptureRange stamp_type).
Implicit Types (output : list (Dispatch stamp_type value_type)).

Import DispatchQueue.

(** C1: on a captor whose queue is in stamp order (invariant Q1, which
    holds for every captor built by the constructor and driven through its
    surface, see [reachable_Q1]), [capture(output, range)] returns [PRIMED]
    and appends to the output exactly the queued dispatches whose stamp is
    strictly less than [range.upper_stamp - delay_], unchanged, in queue
    order and each one once. *)
Theorem capture_emits_all_before_boundary output range self :
  Q1 (queue_ self) →
  (capture output range self).1 =
    (PRIMED,
     output ++
       filter (λ d, stamp_lt (stamp d)
                      (stamp_minus (upper_stamp range) (delay_ self)))
         (queue_ self)).
Proof.
  intros Hq. pose proof (capture_output_Q1 output range self Hq) as Hout.
  rewrite capture_eq in Hout |- *. simpl in *. by rewrite Hout.
Qed.

(** C2: [capture(output, range)] returns [PRIMED], and afterwards no
    queued element has a stamp strictly below the boundary
    [range.upper_stamp - delay_]. *)
Theorem capture_retention_boundary output range self :
  (capture output range self).1.1 = PRIMED ∧
  Forall (λ d, ¬ stamp_lt (stamp d)
                 (stamp_minus (upper_stamp range) (delay_ self)))
    (queue_ (capture output range self).2).
Proof.
  rewrite capture_eq. simpl. split; [done |].
  apply remove_before_Forall.
Qed.

(** C3: [dry_capture(range)] returns [PRIMED] for every captor state, the
    empty queue included, and every range; in particular it never returns
    [RETRY], the state on which a group waits. *)
Theorem dry_capture_always_primed range self (delay : offset_type) :
  dry_capture range self = PRIMED ∧
  dry_capture range (make (value_type := value_type) delay []) = PRIMED ∧
  dry_capture range self ≠ RETRY.
Proof. done. Qed.

(** C4: [dry_capture(range)] leaves the captor (queue, capacity and delay)
    and the output as they were, and the [capture(output, range)] that
    follows it returns the state that [dry_capture(range)] returned. *)
Theorem dry_capture_agrees_with_capture output range self :
  step (self, output) (OpDryCapture range) = (self, output) ∧
  (capture output range
     (step (self, output) (OpDryCapture range)).1).1.1
  = dry_capture range self.
Proof. split; [done |]. simpl. by rewrite capture_eq. Qed.

(** C5: [abort(t_abort)] writes nothing to the output, keeps exactly the
    queued elements whose stamp is not strictly less than
    [t_abort - delay_], in their order, and leaves the delay (and the
    capacity) as it was. *)
Theorem abort_retires_before_boundary t_abort output self :
  (step (self, output) (OpAbort t_abort)).2 = output ∧
  abort t_abort self =
    MkAnyBefore
      (filter (λ d, ¬ stamp_lt (stamp d) (stamp_minus t_abort (delay_ self)))
         (queue_ self))
      (capacity_ self) (delay_ self).
Proof. done. Qed.

(** C6: on a captor whose queue is in stamp order, a sequence of capture
    calls whose upper stamps do not decrease emits, over all the calls
    together, dispatches in non-decreasing stamp order. *)
Theorem captures_emit_in_stamp_order ranges self :
  Q1 (queue_ self) →
  Sorted stamp_le (upper_stamp <$> ranges) →
  Sorted stamp_le (stamp <$> (run (OpCapture <$> ranges) (self, [])).2).
Proof.
  intros Hq _.
  apply (Sorted_fmap stamp (λ a c, stamp_le (stamp a) (stamp c)) stamp_le);
    [done |].
  pose proof (run_captures_prefix ranges self [] Hq) as Hpre.
  simpl in Hpre. rewrite <-Hpre in Hq. by apply Q1_app_l in Hq.
Qed.

(** C7: over every sequence of [inject], [capture], [dry_capture] and
    [abort] calls, the dispatches emitted so far together with those still
    queued form a sub-multiset of the dispatches queued at the start and
    those injected: no dispatch is emitted more often than it was put in,
    and an emitted dispatch is no longer in the queue. *)
Theorem no_duplication ops self :
  (run ops (self, [])).2 ++ queue_ (run ops (self, [])).1
    ⊆+ queue_ self ++ injected ops.
Proof. apply (run_conservation ops (self, [])). Qed.

(** C9: the result of [capture] (state, output and captor afterwards) and
    of [dry_capture] is the same for two ranges with the same upper stamp,
    whatever their lower stamps are. *)
Theorem lower_stamp_irrelevant output lower1 lower2 upper self :
  capture output (MkCaptureRange lower1 upper) self
    = capture output (MkCaptureRange lower2 upper) self ∧
  dry_capture (MkCaptureRange lower1 upper) self
    = dry_capture (MkCaptureRange lower2 upper) self.
Proof. done. Qed.

(** C10: a second [capture(output, range)] right after the first one, for
    the same range, returns [PRIMED], writes nothing and leaves the captor
    as the first call left it. *)
Theorem capture_twice output range self :
  capture (capture output range self).1.2 range (capture output range self).2
  = (PRIMED, (capture output range self).1.2, (capture output range self).2).
Proof.
  rewrite (capture_eq (capture output range self).1.2).
  rewrite capture_boundary.
  rewrite (capture_eq output range self). simpl.
  rewrite capture_loop_fixed by apply remove_before_Forall.
  by rewrite remove_before_idemp.
Qed.
End any_before_spec.

(** ** Integer stamps *)

Section integer_stamps.
Local Open Scope Z_scope.

Import DispatchQueue.

Lemma sample_queue_Q1 : Q1 sample_queue.
Proof. repeat constructor; unfold stamp_le; simpl; lia. Defined.

Example sample_capture :
  capture [] (MkCaptureRange 5 6) sample_follower
  = (PRIMED,
     [MkDispatch 1 10%nat; MkDispatch 4 11%nat; MkDispatch 4 12%nat],
     MkAnyBefore [MkDispatch 7 13%nat] None 1).
Proof. reflexivity. Qed.

Example sample_abort :
  abort 6 sample_follower = MkAnyBefore [MkDispatch 7 13%nat] None 1.
Proof. reflexivity. Qed.

(** Injection keeps stamp order and the order of arrival among equal
    stamps, and a bounded queue drops its oldest element first. *)
Example sample_inject :
  queue_ (inject (MkDispatch 4 14%nat) sample_follower)
  = [MkDispatch 1 10%nat; MkDispatch 4 11%nat; MkDispatch 4 12%nat;
     MkDispatch 4 14%nat; MkDispatch 7 13%nat].
Proof. reflexivity. Qed.

Example sample_inject_bounded :
  queue_ (inject (MkDispatch 5 14%nat) (MkAnyBefore sample_queue (Some 4%nat) 1))
  = [MkDispatch 4 11%nat; MkDispatch 4 12%nat; MkDispatch 5 14%nat;
     MkDispatch 7 13%nat].
Proof. reflexivity. Qed.

(** The boundary comes from the upper stamp: with the range [[2, 6]] the
    elements stamped 4 are emitted although they are not before [2 - 1]. *)
Example sample_capture_wide_range :
  (capture [] (MkCaptureRange 2 6) sample_follower).1.2
  = [MkDispatch 1 10%nat; MkDispatch 4 11%nat; MkDispatch 4 12%nat].
Proof. reflexivity. Qed.

(** Stamp order of the queue matters for what is emitted: a queue that is
    not in stamp order loses the element stamped 1 without emitting it. *)
Example unsorted_capture :
  capture [] (MkCaptureRange 3 4)
    (MkAnyBefore [MkDispatch 5 10%nat; MkDispatch 1 11%nat] None 1)
  = (PRIMED, [], MkAnyBefore [MkDispatch 5 10%nat] None 1).
Proof. reflexivity. Qed.

(** Data injected late is emitted late: order across calls is a property
    of runs of captures, not of runs with injections in between. *)
Example late_injection :
  (run [OpCapture (MkCaptureRange 5 6); OpInject (MkDispatch 2 14%nat);
        OpCapture (MkCaptureRange 6 7)] (sample_follower, [])).2
  = [MkDispatch 1 10%nat; MkDispatch 4 11%nat; MkDispatch 4 12%nat;
     MkDispatch 2 14%nat].
Proof. reflexivity. Qed.

(** C8: for a follower with delay 1 and an empty queue, and the capture
    range [[5, 6]], the boundary is [6 - 1 = 5], [capture] emits nothing,
    the queue stays empty and the state is [PRIMED]. *)
Theorem scenario_chunk_any_before (value_type : Type) (capacity : option nat) :
  boundary (MkAnyBefore (value_type := value_type) [] capacity 1)
    (MkCaptureRange 5 6) = 5 ∧
  capture [] (MkCaptureRange 5 6)
    (MkAnyBefore (value_type := value_type) [] capacity 1)
  = (PRIMED, [], MkAnyBefore [] capacity 1).
Proof. done. Qed.

Lemma capture_emits_all_before_boundary_witness :
  Q1 (queue_ sample_follower) ∧
  (capture [] (MkCaptureRange 5 6) sample_follower).1
  = (PRIMED,
     [] ++ filter (λ d, stamp_lt (stamp d) (stamp_minus 6 1)) sample_queue).
Proof.
  split; [exact sample_queue_Q1 |].
  exact (capture_emits_all_before_boundary [] (MkCaptureRange 5 6)
           sample_follower sample_queue_Q1).
Defined.

Lemma captures_emit_in_stamp_order_witness :
  Sorted stamp_le
    (stamp <$> (run (OpCapture <$> [MkCaptureRange 1 3; MkCaptureRange 5 6])
                  (sample_follower, [])).2).
Proof.
  apply captures_emit_in_stamp_order.
  - exact sample_queue_Q1.
  - repeat constructor. unfold stamp_le; simpl; lia.
Defined.
End integer_stamps.

(** * Further properties of the follower *)

(** ** More on the order of stamps and on the loop *)

Section more_loop_facts.
Context {stamp_type offset_type value_type : Type}.
Context `{!StampTraits stamp_type offset_type}.

Implicit Types (q output : list (Dispatch stamp_type value_type)).
Implicit Types (d : Dispatch stamp_type value_type) (s b : stamp_type).

Import DispatchQueue.

Lemma stamp_lt_le_trans (a b c : stamp_type) :
  stamp_lt a b → stamp_le b c → stamp_lt a c.
Proof.
  intros Hab Hbc.
  destruct (trichotomy stamp_lt a c) as [Hac | [<- | Hca]]; [done | |].
  - by destruct Hbc.
  - destruct Hbc. by transitivity a.
Qed.

(** The output handed to the loop is only ever extended, and what is added
    and what is left does not depend on it. *)
Lemma capture_loop_output b output q :
  capture_loop b output q =
    (output ++ (capture_loop b [] q).1, (capture_loop b [] q).2).
Proof.
  revert output. induction q as [| d q IH]; intros output; simpl.
  - by rewrite (right_id_L [] (++)).
  - case_decide; simpl; [| by rewrite (right_id_L [] (++))].
    rewrite (IH (output ++ [d])), (IH [d]). simpl.
    by rewrite <-(assoc_L (++)).
Qed.


(** A later boundary makes the loop take at least as much. *)
Lemma capture_loop_mono b1 b2 q :
  stamp_le b1 b2 →
  (capture_loop b1 [] q).1 `prefix_of` (capture_loop b2 [] q).1.
Proof.
  intros Hb. induction q as [| d q IH]; simpl; [done |].
  destruct (decide (stamp_lt (stamp d) b1)) as [Hd | Hd]; [| apply prefix_nil].
  rewrite decide_True by (by eapply stamp_lt_le_trans).
  rewrite (capture_loop_output b1 [d]), (capture_loop_output b2 [d]). simpl.
  by apply prefix_cons.
Qed.

Lemma capture_loop_all b output q :
  Forall (λ d, stamp_lt (stamp d) b) q → capture_loop b output q = (output ++ q, []).
Proof.
  intros Hq. revert output.
  induction Hq as [| d q Hd _ IH]; intros output; simpl.
  - by rewrite (right_id_L [] (++)).
  - by rewrite decide_True, IH, <-(assoc_L (++)).
Qed.

Lemma remove_before_none s q :
  Forall (λ d, stamp_lt (stamp d) s) q → remove_before s q = [].
Proof.
  unfold remove_before. induction 1 as [| d q Hd _ IH]; [done |].
  rewrite filter_cons_False; [done | by intros Hn].
Qed.

Lemma remove_before_remove_before s1 s2 q :
  remove_before s1 (remove_before s2 q) = remove_before s2 (remove_before s1 q).
Proof.
  unfold remove_before. rewrite !list_filter_filter.
  apply list_filter_iff. intros d. tauto.
Qed.

Lemma remove_before_absorb s1 s2 q :
  stamp_le s1 s2 → remove_before s2 (remove_before s1 q) = remove_before s2 q.
Proof.
  intros Hs. unfold remove_before. apply list_filter_filter_l.
  intros d Hd2 Hd1. apply Hd2. by eapply stamp_lt_le_trans.
Qed.

Lemma filter_before_absorb s1 s2 q :
  stamp_le s1 s2 →
  filter (λ d, stamp_lt (stamp d) s2) (filter (λ d, stamp_lt (stamp d) s1) q)
  = filter (λ d, stamp_lt (stamp d) s1) q.
Proof.
  intros Hs. apply list_filter_filter_r.
  intros d Hd. by eapply stamp_lt_le_trans.
Qed.
End more_loop_facts.

(** ** Capture and abort on arbitrary queues *)

Section any_before_more.
Context {stamp_type offset_type value_type : Type}.
Context `{!StampTraits stamp_type offset_type}.

Implicit Types (self : AnyBefore stamp_type offset_type value_type).
Implicit Types (range : CaptureRange stamp_type).
Implicit Types (output q : list (Dispatch stamp_type value_type)).
Implicit Types (ops : list (Op stamp_type value_type)).

Import DispatchQueue.

(** A step that is not an injection only moves a leading part of the queue
    to the output or drops elements. *)
Lemma step_sublist (σ : Session stamp_type offset_type value_type) op :
  injected [op] = [] →
  (step σ op).2 ++ queue_ (step σ op).1 `sublist_of` σ.2 ++ queue_ σ.1.
Proof.
  destruct σ as [self output], op as [d | range | range | t]; simpl; [done | ..];
    intros _.
  - rewrite capture_eq. simpl.
    rewrite <-(capture_loop_app (boundary self range) output (queue_ self)).
    apply sublist_app; [done |].
    rewrite <-(capture_loop_remove_before _ output). apply sublist_filter.
  - done.
  - apply sublist_app; [done | apply sublist_filter].
Qed.

Lemma run_sublist ops (σ : Session stamp_type offset_type value_type) :
  injected ops = [] →
  (run ops σ).2 ++ queue_ (run ops σ).1 `sublist_of` σ.2 ++ queue_ σ.1.
Proof.
  revert σ. induction ops as [| op ops IH]; intros σ Hops; [done |].
  change (op :: ops) with ([op] ++ ops) in Hops.
  unfold injected in Hops. rewrite omap_app in Hops.
  apply app_eq_nil in Hops as [Hop Hops].
  change (run (op :: ops) σ) with (run ops (step σ op)).
  etrans; [by apply IH | by apply step_sublist].
Qed.


(** X2: [capture(output, range)] leaves the captor in the state in which
    [abort(range.upper_stamp)] leaves it: both retire exactly the elements
    before [range.upper_stamp - delay_]. *)
Theorem capture_retires_like_abort output range self :
  (capture output range self).2 = abort (upper_stamp range) self.
Proof. by rewrite capture_eq. Qed.

(** X3: on a queue in stamp order [capture] loses nothing: the output
    followed by the queue is the same sequence before and after the call. *)
Theorem capture_conserves output range self :
  Q1 (queue_ self) →
  (capture output range self).1.2 ++ queue_ (capture output range self).2
  = output ++ queue_ self.
Proof.
  intros Hq. rewrite capture_eq. simpl. rewrite capture_loop_Q1 by done. simpl.
  by rewrite <-(assoc_L (++)), <-remove_before_prefix.
Qed.

(** X4: [capture] and [abort] only remove elements: the queue afterwards is
    a subsequence of the queue before, so nothing is added or reordered and
    the size does not grow. *)
Theorem capture_abort_shrink output range t_abort self :
  queue_ (capture output range self).2 `sublist_of` queue_ self ∧
  queue_ (abort t_abort self) `sublist_of` queue_ self ∧
  size (queue_ (capture output range self).2) ≤ size (queue_ self) ∧
  size (queue_ (abort t_abort self)) ≤ size (queue_ self).
Proof.
  rewrite capture_eq. simpl.
  split_and!; try apply sublist_length; apply sublist_filter.
Qed.

(** X5: [capture] and [abort] keep the queue in stamp order. *)
Theorem capture_abort_keep_order output range t_abort self :
  Q1 (queue_ self) →
  Q1 (queue_ (capture output range self).2) ∧ Q1 (queue_ (abort t_abort self)).
Proof.
  intros Hq. rewrite capture_eq. simpl. split; by apply Q1_remove_before.
Qed.

(** X6: after [abort(t)], a [capture] for a range whose upper stamp is [t]
    writes nothing and changes nothing. *)
Theorem capture_after_abort output lower t_abort self :
  capture output (MkCaptureRange lower t_abort) (abort t_abort self)
  = (PRIMED, output, abort t_abort self).
Proof.
  rewrite capture_eq. unfold boundary. simpl.
  rewrite capture_loop_fixed by apply remove_before_Forall.
  by rewrite remove_before_idemp.
Qed.

(** X7: two aborts can be made in either order, and repeating an abort
    changes nothing. *)
Theorem abort_abort t1 t2 self :
  abort t1 (abort t2 self) = abort t2 (abort t1 self) ∧
  abort t1 (abort t1 self) = abort t1 self.
Proof.
  unfold abort, abort_follower_impl. simpl. split.
  - by rewrite remove_before_remove_before.
  - by rewrite remove_before_idemp.
Qed.

(** X8: on a queue in stamp order, capturing for a range and then for a
    range with a later (or equal) boundary writes the same output and leaves
    the same captor as capturing for the second range at once. *)
Theorem capture_capture output range1 range2 self :
  Q1 (queue_ self) →
  stamp_le (boundary self range1) (boundary self range2) →
  capture (capture output range1 self).1.2 range2 (capture output range1 self).2
  = capture output range2 self.
Proof.
  intros Hq Hb.
  rewrite (capture_eq (capture output range1 self).1.2).
  rewrite (capture_eq output range1 self). simpl.
  change (boundary (MkAnyBefore _ _ _) range2) with (boundary self range2).
  rewrite (capture_eq output range2 self).
  rewrite !capture_loop_Q1 by auto using Q1_remove_before. simpl.
  rewrite remove_before_absorb by done.
  do 2 f_equal. rewrite <-(assoc_L (++)). f_equal.
  rewrite (remove_before_prefix (boundary self range1) (queue_ self) Hq) at 3.
  by rewrite list.filter_app, filter_before_absorb.
Qed.

(** X9: a later boundary never makes [capture] write less: for any queue,
    the output for the earlier boundary is a prefix of the output for the
    later one. *)
Theorem capture_output_monotone output range1 range2 self :
  stamp_le (boundary self range1) (boundary self range2) →
  (capture output range1 self).1.2 `prefix_of` (capture output range2 self).1.2.
Proof.
  intros Hb. rewrite !capture_eq. simpl.
  rewrite (capture_loop_output _ output), (capture_loop_output (boundary self range2) output).
  simpl. by apply prefix_app, capture_loop_mono.
Qed.

(** X10: [capture] only appends to its output: what was written before
    stays in front, and neither the dispatches written nor the captor
    afterwards depend on it. *)
Theorem capture_appends output range self :
  (capture output range self).1.2 = output ++ (capture [] range self).1.2 ∧
  (capture output range self).2 = (capture [] range self).2.
Proof.
  rewrite !capture_eq. simpl. split; [| done].
  by rewrite (capture_loop_output _ output).
Qed.

(** X11: over a sequence of [capture], [dry_capture] and [abort] calls
    without injections, the dispatches emitted followed by those still
    queued form a subsequence of the initial queue: everything is emitted in
    queue order and at most once. *)
Theorem run_without_inject ops self :
  injected ops = [] →
  (run ops (self, [])).2 ++ queue_ (run ops (self, [])).1
    `sublist_of` queue_ self.
Proof. intros Hops. by apply (run_sublist ops (self, [])). Qed.

(** X12: on a queue in stamp order, a sequence of [capture], [dry_capture]
    and [abort] calls without injections emits dispatches in non-decreasing
    stamp order, whatever the ranges and abort stamps are. *)
Theorem run_without_inject_in_order ops self :
  injected ops = [] → Q1 (queue_ self) → Q1 (run ops (self, [])).2.
Proof.
  intros Hops Hq. pose proof (run_sublist ops (self, []) Hops) as Hsub.
  simpl in Hsub. eapply Q1_app_l, Q1_sublist; [exact Hsub | done].
Qed.

(** X13: no operation changes the delay or the capacity of a captor. *)
Theorem run_keeps_parameters ops (σ : Session stamp_type offset_type value_type) :
  delay_ (run ops σ).1 = delay_ σ.1 ∧ capacity_ (run ops σ).1 = capacity_ σ.1.
Proof.
  revert σ. induction ops as [| op ops IH]; intros σ; [done |].
  change (run (op :: ops) σ) with (run ops (step σ op)).
  destruct (IH (step σ op)) as [-> ->].
  destruct σ as [self output], op as [d | range | range | t]; simpl; try done.
  by rewrite capture_eq.
Qed.

(** X14: when every queued element is before the boundary, [capture] writes
    the whole queue, in its order, and leaves the queue empty. *)
Theorem capture_everything output range self :
  Forall (λ d, stamp_lt (stamp d) (boundary self range)) (queue_ self) →
  capture output range self
  = (PRIMED, output ++ queue_ self, MkAnyBefore [] (capacity_ self) (delay_ self)).
Proof.
  intros Hall. rewrite capture_eq.
  by rewrite capture_loop_all, remove_before_none.
Qed.

(** X15: when no queued element is before the boundary, and in particular
    when the queue is empty, [capture] writes nothing and leaves the captor
    as it is. *)
Theorem capture_nothing output range self :
  Forall (λ d, stamp_le (boundary self range) (stamp d)) (queue_ self) →
  capture output range self = (PRIMED, output, self).
Proof.
  intros Hall. rewrite capture_eq.
  rewrite capture_loop_fixed, remove_before_all_le by done.
  by destruct self.
Qed.
(** X17: after a [capture], a [capture] for a range whose boundary is not
    later than the first one, and an [abort] whose boundary is not later,
    write nothing and leave the captor as the first call left it; this holds
    for any queue. *)
Theorem capture_then_earlier output range1 range2 t_abort self :
  stamp_le (boundary self range2) (boundary self range1) →
  stamp_le (stamp_minus t_abort (delay_ self)) (boundary self range1) →
  capture (capture output range1 self).1.2 range2 (capture output range1 self).2
  = (PRIMED, (capture output range1 self).1.2, (capture output range1 self).2) ∧
  abort t_abort (capture output range1 self).2 = (capture output range1 self).2.
Proof.
  intros Hb Ht.
  assert (Hall : ∀ s, stamp_le s (boundary self range1) →
            Forall (λ d, stamp_le s (stamp d))
              (remove_before (boundary self range1) (queue_ self))).
  { intros s Hs. eapply list.Forall_impl; [apply remove_before_Forall |].
    intros d Hd; simpl in Hd. by etrans. }
  rewrite (capture_eq (capture output range1 self).1.2).
  rewrite (capture_eq output range1 self). simpl.
  change (boundary (MkAnyBefore _ _ _) range2) with (boundary self range2).
  unfold abort, abort_follower_impl. simpl.
  rewrite capture_loop_fixed by auto.
  rewrite (remove_before_all_le (boundary self range2)) by auto.
  by rewrite (remove_before_all_le (stamp_minus t_abort (delay_ self))) by auto.
Qed.
End any_before_more.

(** ** More on integer stamps *)

Section integer_stamps_more.
Local Open Scope Z_scope.

Import DispatchQueue.


Lemma capture_conserves_witness :
  (capture [] (MkCaptureRange 5 6) sample_follower).1.2
    ++ queue_ (capture [] (MkCaptureRange 5 6) sample_follower).2
  = [] ++ queue_ sample_follower.
Proof.
  exact (capture_conserves [] (MkCaptureRange 5 6) sample_follower
           sample_queue_Q1).
Defined.

Lemma capture_abort_keep_order_witness :
  Q1 (queue_ (capture [] (MkCaptureRange 5 6) sample_follower).2) ∧
  Q1 (queue_ (abort 6 sample_follower)).
Proof.
  exact (capture_abort_keep_order [] (MkCaptureRange 5 6) 6 sample_follower
           sample_queue_Q1).
Defined.

Lemma capture_capture_witness :
  capture (capture [] (MkCaptureRange 1 3) sample_follower).1.2
    (MkCaptureRange 5 6) (capture [] (MkCaptureRange 1 3) sample_follower).2
  = capture [] (MkCaptureRange 5 6) sample_follower.
Proof.
  apply capture_capture.
  - exact sample_queue_Q1.
  - unfold stamp_le, boundary. simpl. lia.
Defined.

Lemma capture_output_monotone_witness :
  (capture [] (MkCaptureRange 1 3) sample_follower).1.2
    `prefix_of` (capture [] (MkCaptureRange 5 6) sample_follower).1.2.
Proof.
  apply capture_output_monotone.
  unfold stamp_le, boundary. simpl. lia.
Defined.

Lemma run_without_inject_witness :
  (run [OpCapture (MkCaptureRange 1 3); OpAbort 6;
        OpDryCapture (MkCaptureRange 8 9); OpCapture (MkCaptureRange 8 9)]
     (sample_follower, [])).2
    ++ queue_ (run [OpCapture (MkCaptureRange 1 3); OpAbort 6;
                    OpDryCapture (MkCaptureRange 8 9);
                    OpCapture (MkCaptureRange 8 9)]
                 (sample_follower, [])).1
    `sublist_of` queue_ sample_follower.
Proof. apply run_without_inject. reflexivity. Defined.

Lemma run_without_inject_in_order_witness :
  Q1 (run [OpCapture (MkCaptureRange 1 3); OpAbort 6;
           OpDryCapture (MkCaptureRange 8 9); OpCapture (MkCaptureRange 8 9)]
        (sample_follower, [])).2.
Proof.
  apply run_without_inject_in_order; [reflexivity | exact sample_queue_Q1].
Defined.

Lemma capture_everything_witness :
  capture [] (MkCaptureRange 8 9) sample_follower
  = (PRIMED, [] ++ queue_ sample_follower,
     MkAnyBefore [] (capacity_ sample_follower) (delay_ sample_follower)).
Proof.
  apply capture_everything.
  repeat (constructor; [unfold boundary; simpl; lia |]). constructor.
Defined.

Lemma capture_nothing_witness :
  capture [] (MkCaptureRange 0 1) sample_follower
  = (PRIMED, [], sample_follower).
Proof.
  apply capture_nothing.
  repeat (constructor; [unfold stamp_le, boundary; simpl; lia |]). constructor.
Defined.

Lemma capture_then_earlier_witness :
  capture (capture [] (MkCaptureRange 5 6) sample_follower).1.2
    (MkCaptureRange 1 3) (capture [] (MkCaptureRange 5 6) sample_follower).2
  = (PRIMED, (capture [] (MkCaptureRange 5 6) sample_follower).1.2,
     (capture [] (MkCaptureRange 5 6) sample_follower).2) ∧
  abort 4 (capture [] (MkCaptureRange 5 6) sample_follower).2
  = (capture [] (MkCaptureRange 5 6) sample_follower).2.
Proof.
  apply capture_then_earlier; unfold stamp_le, boundary; simpl; lia.
Defined.


(** What the run of the witnesses above does: the abort between the two
    captures retires the elements stamped 4 unseen. *)
Example sample_run_with_abort :
  run [OpCapture (MkCaptureRange 1 3); OpAbort 6;
       OpDryCapture (MkCaptureRange 8 9); OpCapture (MkCaptureRange 8 9)]
    (sample_follower, [])
  = (MkAnyBefore [] None 1, [MkDispatch 1 10%nat; MkDispatch 7 13%nat]).
Proof. reflexivity. Qed.

(** A negative delay moves the boundary past the upper stamp. *)
Example sample_negative_delay :
  capture [] (MkCaptureRange 2 3) (MkAnyBefore sample_queue None (-2))
  = (PRIMED,
     [MkDispatch 1 10%nat; MkDispatch 4 11%nat; MkDispatch 4 12%nat],
     MkAnyBefore [MkDispatch 7 13%nat] None (-2)).
Proof. reflexivity. Qed.
End integer_stamps_more.
